(** * A shallow embedding of the [file_set] crate

    [src/lib.rs] ([FileSet]), [src/enums.rs], [src/ordered_set.rs]
    ([OrderedSet]) and [src/orderable_set.rs] ([OrderableSet]).

    Paths ([PathBuf]) are strings; on Unix an [OsStr] is its bytes, which
    for a Rocq [string] are its ascii characters.  The filesystem is a
    record of two partial functions: the listing [read_dir] returns, and
    the link-aware metadata [symlink_metadata] returns.  A Rust panic
    (an [unwrap] on an [Err] or on [None]) is the [Panicked] outcome. *)

From Stdlib Require Import List String Ascii Arith NArith Bool Sorted Permutation Lia.
Import ListNotations.

(** ** Outcomes: a returned value or a panic *)

Inductive Outcome (A : Type) : Type :=
| Returned (a : A)
| Panicked.
Arguments Returned {A} a.
Arguments Panicked {A}.

Definition obind {A B : Type} (m : Outcome A) (f : A -> Outcome B) : Outcome B :=
  match m with
  | Returned a => f a
  | Panicked => Panicked
  end.

Notation "x <- m ;; k" := (obind m (fun x => k))
  (at level 61, m at next level, right associativity).

(** [Option::unwrap] / [Result::unwrap]. *)
Definition unwrap {A : Type} (o : option A) : Outcome A :=
  match o with
  | Some a => Returned a
  | None => Panicked
  end.

(** ** Paths ([std::path]) *)

Definition PathBuf := string.

(** Split a path on ['/']. *)
Fixpoint split_slash_aux (cur : string) (s : string) : list string :=
  match s with
  | EmptyString => [cur]
  | String c s' =>
      if Ascii.eqb c "/"%char then cur :: split_slash_aux EmptyString s'
      else split_slash_aux (String.append cur (String c EmptyString)) s'
  end.

Definition split_slash (s : string) : list string := split_slash_aux EmptyString s.

(** [Path::components] keeps the [Normal] and [ParentDir] parts: empty
    parts (repeated or trailing separators) and ["."] parts are dropped. *)
Definition normal_components (p : PathBuf) : list string :=
  filter (fun c => negb (String.eqb c ""%string || String.eqb c "."%string)) (split_slash p).

(** [Path::file_name]: the last component if it is a [Normal] one. *)
Definition file_name (p : PathBuf) : option string :=
  match rev (normal_components p) with
  | [] => None
  | c :: _ => if String.eqb c ".."%string then None else Some c
  end.

(** The bytes after the last ['.'] of a name, and whether there is one
    together with the bytes before it ([rsplitn(2, '.')]). *)
Fixpoint rsplit_dot (s : string) : string * option string :=
  match s with
  | EmptyString => (EmptyString, None)
  | String c s' =>
      match rsplit_dot s' with
      | (after, Some before) => (after, Some (String c before))
      | (after, None) =>
          if Ascii.eqb c "."%char then (after, Some EmptyString)
          else (String c after, None)
      end
  end.

(** [rsplit_file_at_dot] followed by [before.and(after)]. *)
Definition extension_of_name (name : string) : option string :=
  if String.eqb name ".."%string then None
  else match rsplit_dot name with
       | (_, None) => None
       | (_, Some EmptyString) => None
       | (after, Some _) => Some after
       end.

(** [Path::extension]. *)
Definition extension (p : PathBuf) : option string :=
  match file_name p with
  | None => None
  | Some n => extension_of_name n
  end.

(** ** The filesystem *)

(** [std::fs::FileType] as reported by [symlink_metadata] (the link itself,
    not its target). *)
Inductive FileType := FTDir | FTFile | FTSymlink | FTOther.

Definition is_dir (t : FileType) : bool := match t with FTDir => true | _ => false end.
Definition is_file (t : FileType) : bool := match t with FTFile => true | _ => false end.
Definition is_symlink (t : FileType) : bool := match t with FTSymlink => true | _ => false end.

(** What is stored at a path; a symbolic link records its target. *)
Inductive NodeKind :=
| NDir
| NFile
| NSymlink (target : PathBuf)
| NOther.

Record Node := { node_kind : NodeKind; node_len : N }.

Record Metadata := { file_type : FileType; len : N }.

(** A filesystem: the listing of a directory ([None]: [read_dir] fails;
    an entry [None]: that [DirEntry] is an [Err]) and the node at a path
    ([None]: [symlink_metadata] fails, missing or permission denied). *)
Record FileSystem := {
  fs_read_dir : PathBuf -> option (list (option PathBuf));
  fs_node : PathBuf -> option Node
}.

Definition file_type_of_kind (k : NodeKind) : FileType :=
  match k with
  | NDir => FTDir
  | NFile => FTFile
  | NSymlink _ => FTSymlink
  | NOther => FTOther
  end.

(** [Path::symlink_metadata]: [lstat], the link is not followed. *)
Definition symlink_metadata (fs : FileSystem) (p : PathBuf) : option Metadata :=
  match fs_node fs p with
  | None => None
  | Some n => Some {| file_type := file_type_of_kind (node_kind n); len := node_len n |}
  end.

(** ** [IndexSet<PathBuf>] *)

Definition IndexSet := list PathBuf.

Definition contains (s : IndexSet) (x : PathBuf) : bool :=
  existsb (String.eqb x) s.

(** [IndexSet::insert]: an existing value keeps its position. *)
Definition insert (s : IndexSet) (x : PathBuf) : IndexSet :=
  if contains s x then s else s ++ [x].

(** [.collect::<IndexSet<_>>()]: insert in iteration order. *)
Definition collect (l : list PathBuf) : IndexSet := fold_left insert l [].

(** The iterator [a.difference(b)]. *)
Definition difference_iter (a b : IndexSet) : list PathBuf :=
  filter (fun x => negb (contains b x)) a.

(** The iterator [a.union(b)]: [a], then [b.difference(a)]. *)
Definition union_iter (a b : IndexSet) : list PathBuf :=
  a ++ difference_iter b a.

(** ** [src/enums.rs] *)

Inductive ItemFilter := Directory | File | Symlink.
Inductive TextFilterBy := Extension | Name.
Inductive VisibilityFilter := Hidden | Visible.

Inductive Filter :=
| Item (item_filter : ItemFilter)
| Text (text_filter_by : TextFilterBy) (text : string)
| Visibility (visibility_filter : VisibilityFilter).

Inductive OrderBy := OExtension | OItem | OName | OSize.

(** ** Sorting: [slice::sort_by], a stable sort

    A stable insertion sort with a comparator that may panic.  The head
    of a list is inserted in front of the first element it is not greater
    than, so equal elements keep their relative order. *)

Section SortBy.
Context {A : Type} (cmp : A -> A -> Outcome comparison).

Fixpoint insert_by (x : A) (l : list A) : Outcome (list A) :=
  match l with
  | [] => Returned [x]
  | y :: l' =>
      o <- cmp x y ;;
      match o with
      | Gt => r <- insert_by x l' ;; Returned (y :: r)
      | _ => Returned (x :: y :: l')
      end
  end.

Fixpoint sort_by (l : list A) : Outcome (list A) :=
  match l with
  | [] => Returned []
  | x :: l' => r <- sort_by l' ;; insert_by x r
  end.
End SortBy.

(** [sort_by] when the comparator never panics. *)
Section SortByTotal.
Context {A : Type} (c : A -> A -> comparison).

Fixpoint insert_total (x : A) (l : list A) : list A :=
  match l with
  | [] => [x]
  | y :: l' =>
      match c x y with
      | Gt => y :: insert_total x l'
      | _ => x :: y :: l'
      end
  end.

Fixpoint sort_total (l : list A) : list A :=
  match l with
  | [] => []
  | x :: l' => insert_total x (sort_total l')
  end.
End SortByTotal.

(** [Ord for Option<T>]: [None] before any [Some]. *)
Definition option_cmp {T : Type} (c : T -> T -> comparison) (a b : option T) : comparison :=
  match a, b with
  | None, None => Eq
  | None, Some _ => Lt
  | Some _, None => Gt
  | Some x, Some y => c x y
  end.

(** [Ord for OsStr]: lexicographic on the bytes. *)
Definition os_str_cmp : string -> string -> comparison := String.compare.

(** ** [FileSet] ([src/lib.rs]) *)

Record FileSet := { index_set : IndexSet }.

Fixpoint unwrap_all (l : list (option PathBuf)) : Outcome (list PathBuf) :=
  match l with
  | [] => Returned []
  | e :: l' => p <- unwrap e ;; ps <- unwrap_all l' ;; Returned (p :: ps)
  end.

(** [FileSet::new]: [read_dir(&directory).unwrap().map(|x| x.unwrap().path())
    .collect()]. *)
Definition new (fs : FileSystem) (directory : PathBuf) : Outcome FileSet :=
  entries <- unwrap (fs_read_dir fs directory) ;;
  paths <- unwrap_all entries ;;
  Returned {| index_set := collect paths |}.

Section Operations.
Variable fs : FileSystem.

Definition is_file_type_function (item_filter : ItemFilter) : FileType -> bool :=
  match item_filter with
  | Directory => is_dir
  | File => is_file
  | Symlink => is_symlink
  end.

(** The per-path predicate of [filter_by_item]:
    [symlink_metadata().map(..).unwrap_or(false)]. *)
Definition item_matches (item_filter : ItemFilter) (p : PathBuf) : bool :=
  match symlink_metadata fs p with
  | Some m => is_file_type_function item_filter (file_type m)
  | None => false
  end.

Definition filter_by_item (s : FileSet) (item_filter : ItemFilter) : IndexSet :=
  collect (filter (item_matches item_filter) (index_set s)).

Definition get_name_or_extension_function (t : TextFilterBy) : PathBuf -> option string :=
  match t with
  | Extension => extension
  | Name => file_name
  end.

Definition text_matches (t : TextFilterBy) (text : string) (p : PathBuf) : bool :=
  match get_name_or_extension_function t p with
  | Some n => String.prefix text n
  | None => false
  end.

Definition filter_by_text (s : FileSet) (t : TextFilterBy) (text : string) : IndexSet :=
  collect (filter (text_matches t text) (index_set s)).

Definition visibility_matches (v : VisibilityFilter) (p : PathBuf) : bool :=
  let should_find_visible_files := match v with Hidden => false | Visible => true end in
  match file_name p with
  | Some n => xorb should_find_visible_files (String.prefix "." n)
  | None => false
  end.

Definition filter_by_visibility (s : FileSet) (v : VisibilityFilter) : IndexSet :=
  collect (filter (visibility_matches v) (index_set s)).

Definition filter (s : FileSet) (f : Filter) : FileSet :=
  {| index_set :=
       match f with
       | Item i => filter_by_item s i
       | Text t text => filter_by_text s t text
       | Visibility v => filter_by_visibility s v
       end |}.

Definition exclude (s : FileSet) (f : Filter) : FileSet :=
  let items_to_exclude := filter s f in
  {| index_set := collect (difference_iter (index_set s) (index_set items_to_exclude)) |}.

Definition order_by_item (s : FileSet) : IndexSet :=
  let directories := filter s (Item Directory) in
  let files := filter s (Item File) in
  let symlinks := filter s (Item Symlink) in
  let get_index_set_union (a b : IndexSet) := collect (union_iter a b) in
  get_index_set_union (get_index_set_union (index_set directories) (index_set files))
                      (index_set symlinks).

(** [|a| a.symlink_metadata().unwrap().len()] *)
Definition get_file_size (p : PathBuf) : Outcome N :=
  m <- unwrap (symlink_metadata fs p) ;; Returned (len m).

Definition order_cmp (order_by : OrderBy) (a b : PathBuf) : Outcome comparison :=
  match order_by with
  | OExtension => Returned (option_cmp os_str_cmp (extension a) (extension b))
  | OName => Returned (option_cmp os_str_cmp (file_name a) (file_name b))
  | _ => sa <- get_file_size a ;; sb <- get_file_size b ;; Returned (N.compare sa sb)
  end.

Definition order_by_extension_name_size (s : FileSet) (order_by : OrderBy)
  : Outcome IndexSet :=
  sort_by (order_cmp order_by) (index_set s).

Definition order_by (s : FileSet) (o : OrderBy) : Outcome FileSet :=
  ix <- match o with
        | OItem => Returned (order_by_item s)
        | _ => order_by_extension_name_size s o
        end ;;
  Returned {| index_set := ix |}.

Definition reverse (s : FileSet) : FileSet :=
  {| index_set := collect (rev (index_set s)) |}.

Definition to_vec (s : FileSet) : list PathBuf := index_set s.

(** [FileSet::len] (the name [len] is the [Metadata] field here). *)
Definition file_set_len (s : FileSet) : nat := List.length (index_set s).

Definition is_empty (s : FileSet) : bool :=
  match index_set s with [] => true | _ => false end.
End Operations.

(** ** [OrderedSet<T>] and [OrderableSet<T>]

    [Result<_, &'static str>]; element equality ([PartialEq]) is a
    decidable equality. *)

Inductive Result (A E : Type) : Type :=
| Ok (a : A)
| Err (e : E).
Arguments Ok {A E} a.
Arguments Err {A E} e.

(** A program over a bank of set variables (registers), the same for both
    set types: a new set ([new], [intersection], [difference], the value
    returned by [reverse], a successful [try_from]) goes into a fresh
    register at the end; a command naming a missing register does nothing. *)
Inductive Command (T : Type) : Type :=
| CNew
| CPush (i : nat) (x : T)
| CIntersection (i j : nat)
| CDifference (i j : nat)
| CReverse (i : nat)
| CIsDisjoint (i j : nat)
| CToVec (i : nat)
| CTryFrom (v : list T).
Arguments CNew {T}.
Arguments CPush {T} i x.
Arguments CIntersection {T} i j.
Arguments CDifference {T} i j.
Arguments CReverse {T} i.
Arguments CIsDisjoint {T} i j.
Arguments CToVec {T} i.
Arguments CTryFrom {T} v.

(** What a caller observes: the results of [push], [is_disjoint],
    [to_vec] and whether [try_from] succeeded. *)
Inductive Observation (T : Type) : Type :=
| OPush (r : Result unit string)
| OBool (b : bool)
| OVec (v : list T)
| OTryFrom (r : Result unit string).
Arguments OPush {T} r.
Arguments OBool {T} b.
Arguments OVec {T} v.
Arguments OTryFrom {T} r.

Fixpoint set_nth {A : Type} (l : list A) (i : nat) (x : A) : list A :=
  match l, i with
  | [], _ => []
  | _ :: l', O => x :: l'
  | y :: l', S i' => y :: set_nth l' i' x
  end.

Module OrderedSet.
Record OrderedSet (T : Type) := mk { items : list T }.
Arguments mk {T} items.
Arguments items {T} o.

Section Ops.
Context {T : Type} (eq_dec : forall x y : T, {x = y} + {x <> y}).

(** [Vec::contains]. *)
Definition vec_contains (v : list T) (item : T) : bool :=
  existsb (fun y => if eq_dec y item then true else false) v.

Definition new : OrderedSet T := mk [].

(** [push(&mut self, item)]: the receiver after the call, and the result. *)
Definition push (self : OrderedSet T) (item : T) : OrderedSet T * Result unit string :=
  if vec_contains (items self) item
  then (self, Err "Cannot add an item to set that already exists in the set"%string)
  else (mk (items self ++ [item]), Ok tt).

Definition intersection_difference_base (self other : OrderedSet T)
  (should_compute_intersection : bool) : OrderedSet T :=
  mk (List.filter (fun x => Bool.eqb (vec_contains (items other) x)
                                     should_compute_intersection) (items self)).

Definition intersection (self other : OrderedSet T) : OrderedSet T :=
  intersection_difference_base self other true.

Definition difference (self other : OrderedSet T) : OrderedSet T :=
  intersection_difference_base self other false.

(** [reverse(&mut self)]: the receiver after the call, and the value returned. *)
Definition reverse (self : OrderedSet T) : OrderedSet T * OrderedSet T :=
  let self' := mk (rev (items self)) in
  (self', mk (items self')).

Definition to_vec (self : OrderedSet T) : list T := items self.

Definition is_disjoint (self other : OrderedSet T) : bool :=
  match to_vec (intersection self other) with [] => true | _ => false end.

Definition count (v : list T) (item : T) : nat :=
  List.length (List.filter (fun n => if eq_dec n item then true else false) v).

Definition try_from (vec : list T) : Result (OrderedSet T) string :=
  if existsb (fun item => Nat.ltb 1 (count vec item)) vec
  then Err "All elements of the set must be unique"%string
  else Ok (mk vec).

Definition exec (regs : list (OrderedSet T)) (c : Command T)
  : list (OrderedSet T) * list (Observation T) :=
  match c with
  | CNew => (regs ++ [new], [])
  | CPush i x =>
      match nth_error regs i with
      | Some s => let (s', r) := push s x in (set_nth regs i s', [OPush r])
      | None => (regs, [])
      end
  | CIntersection i j =>
      match nth_error regs i, nth_error regs j with
      | Some a, Some b => (regs ++ [intersection a b], [])
      | _, _ => (regs, [])
      end
  | CDifference i j =>
      match nth_error regs i, nth_error regs j with
      | Some a, Some b => (regs ++ [difference a b], [])
      | _, _ => (regs, [])
      end
  | CReverse i =>
      match nth_error regs i with
      | Some s => let (s', r) := reverse s in (set_nth regs i s' ++ [r], [])
      | None => (regs, [])
      end
  | CIsDisjoint i j =>
      match nth_error regs i, nth_error regs j with
      | Some a, Some b => (regs, [OBool (is_disjoint a b)])
      | _, _ => (regs, [])
      end
  | CToVec i =>
      match nth_error regs i with
      | Some s => (regs, [OVec (to_vec s)])
      | None => (regs, [])
      end
  | CTryFrom v =>
      match try_from v with
      | Ok s => (regs ++ [s], [OTryFrom (Ok tt)])
      | Err e => (regs, [OTryFrom (Err e)])
      end
  end.

Fixpoint run (regs : list (OrderedSet T)) (prog : list (Command T))
  : list (OrderedSet T) * list (Observation T) :=
  match prog with
  | [] => (regs, [])
  | c :: prog' =>
      let (regs1, o1) := exec regs c in
      let (regs2, o2) := run regs1 prog' in
      (regs2, o1 ++ o2)
  end.
End Ops.
End OrderedSet.

Module OrderableSet.
Record OrderableSet (T : Type) := mk { items : list T }.
Arguments mk {T} items.
Arguments items {T} o.

Section Ops.
Context {T : Type} (eq_dec : forall x y : T, {x = y} + {x <> y}).

(** [Vec::contains]. *)
Definition vec_contains (v : list T) (item : T) : bool :=
  existsb (fun y => if eq_dec y item then true else false) v.

Definition new : OrderableSet T := mk [].

(** [push(&mut self, item)]: the receiver after the call, and the result. *)
Definition push (self : OrderableSet T) (item : T) : OrderableSet T * Result unit string :=
  if vec_contains (items self) item
  then (self, Err "Cannot add an item to set that already exists in the set"%string)
  else (mk (items self ++ [item]), Ok tt).

(** [reverse(&mut self)]: the receiver after the call, and the value returned. *)
Definition reverse (self : OrderableSet T) : OrderableSet T * OrderableSet T :=
  let self' := mk (rev (items self)) in
  (self', mk (items self')).

Definition intersection_difference_base (self other : OrderableSet T)
  (should_compute_intersection : bool) : OrderableSet T :=
  mk (List.filter (fun x => Bool.eqb (vec_contains (items other) x)
                                     should_compute_intersection) (items self)).

Definition intersection (self other : OrderableSet T) : OrderableSet T :=
  intersection_difference_base self other true.

Definition difference (self other : OrderableSet T) : OrderableSet T :=
  intersection_difference_base self other false.

Definition to_vec (self : OrderableSet T) : list T := items self.

Definition is_disjoint (self other : OrderableSet T) : bool :=
  match to_vec (intersection self other) with [] => true | _ => false end.

Definition count (v : list T) (item : T) : nat :=
  List.length (List.filter (fun n => if eq_dec n item then true else false) v).

Definition try_from (vec : list T) : Result (OrderableSet T) string :=
  if existsb (fun item => Nat.ltb 1 (count vec item)) vec
  then Err "All elements of the set must be unique"%string
  else Ok (mk vec).

Definition exec (regs : list (OrderableSet T)) (c : Command T)
  : list (OrderableSet T) * list (Observation T) :=
  match c with
  | CNew => (regs ++ [new], [])
  | CPush i x =>
      match nth_error regs i with
      | Some s => let (s', r) := push s x in (set_nth regs i s', [OPush r])
      | None => (regs, [])
      end
  | CIntersection i j =>
      match nth_error regs i, nth_error regs j with
      | Some a, Some b => (regs ++ [intersection a b], [])
      | _, _ => (regs, [])
      end
  | CDifference i j =>
      match nth_error regs i, nth_error regs j with
      | Some a, Some b => (regs ++ [difference a b], [])
      | _, _ => (regs, [])
      end
  | CReverse i =>
      match nth_error regs i with
      | Some s => let (s', r) := reverse s in (set_nth regs i s' ++ [r], [])
      | None => (regs, [])
      end
  | CIsDisjoint i j =>
      match nth_error regs i, nth_error regs j with
      | Some a, Some b => (regs, [OBool (is_disjoint a b)])
      | _, _ => (regs, [])
      end
  | CToVec i =>
      match nth_error regs i with
      | Some s => (regs, [OVec (to_vec s)])
      | None => (regs, [])
      end
  | CTryFrom v =>
      match try_from v with
      | Ok s => (regs ++ [s], [OTryFrom (Ok tt)])
      | Err e => (regs, [OTryFrom (Err e)])
      end
  end.

Fixpoint run (regs : list (OrderableSet T)) (prog : list (Command T))
  : list (OrderableSet T) * list (Observation T) :=
  match prog with
  | [] => (regs, [])
  | c :: prog' =>
      let (regs1, o1) := exec regs c in
      let (regs2, o2) := run regs1 prog' in
      (regs2, o1 ++ o2)
  end.
End Ops.
End OrderableSet.

(** ** Example inputs *)

(** The directory of the spec's scenario: [.hidden.txt], [note.txt], the
    directory [img] and [link -> note.txt]. *)
Definition example_fs : FileSystem := {|
  fs_read_dir := fun d =>
    if String.eqb d "d"%string
    then Some [Some "d/.hidden.txt"%string; Some "d/note.txt"%string;
               Some "d/img"%string; Some "d/link"%string]
    else None;
  fs_node := fun p =>
    if String.eqb p "d/img"%string then Some {| node_kind := NDir; node_len := 64 |}
    else if String.eqb p "d/link"%string
    then Some {| node_kind := NSymlink "note.txt"%string; node_len := 8 |}
    else if String.eqb p "d/note.txt"%string then Some {| node_kind := NFile; node_len := 10 |}
    else if String.eqb p "d/.hidden.txt"%string then Some {| node_kind := NFile; node_len := 3 |}
    else None
|}.

Definition example_set : FileSet :=
  {| index_set := ["d/.hidden.txt"; "d/note.txt"; "d/img"; "d/link"]%string |}.

(** A directory with a readable file [d/a] and an entry [d/b] whose metadata
    cannot be read (deleted after the listing); its listing also has an entry
    that cannot be read. *)
Definition unreadable_fs : FileSystem := {|
  fs_read_dir := fun d =>
    if String.eqb d "d"%string then Some [Some "d/a"%string; None; Some "d/b"%string]
    else None;
  fs_node := fun p =>
    if String.eqb p "d/a"%string then Some {| node_kind := NFile; node_len := 5 |}
    else None
|}.

Definition unreadable_set : FileSet := {| index_set := ["d/a"; "d/b"]%string |}.

(** * Proofs *)

(** ** [IndexSet] facts *)

Lemma contains_In (s : IndexSet) (x : PathBuf) : contains s x = true <-> In x s.
Proof.
  unfold contains. rewrite existsb_exists. split.
  - intros [y [Hy Heq]]. apply String.eqb_eq in Heq. subst. exact Hy.
  - intros H. exists x. split; [exact H | apply String.eqb_refl].
Qed.

Lemma contains_false (s : IndexSet) (x : PathBuf) : contains s x = false <-> ~ In x s.
Proof.
  rewrite <- contains_In. destruct (contains s x); split; congruence.
Qed.

Lemma In_fold_insert (l : list PathBuf) : forall (acc : IndexSet) x,
  In x (fold_left insert l acc) <-> In x acc \/ In x l.
Proof.
  induction l as [|y l IH]; intros acc x; simpl.
  - tauto.
  - rewrite IH. unfold insert. destruct (contains acc y) eqn:Hc.
    + apply contains_In in Hc. split; [tauto|].
      intros [H|[H|H]]; subst; tauto.
    + rewrite in_app_iff. simpl. tauto.
Qed.

Lemma In_collect (l : list PathBuf) x : In x (collect l) <-> In x l.
Proof. unfold collect. rewrite In_fold_insert. simpl. tauto. Qed.

Lemma NoDup_fold_insert (l : list PathBuf) : forall (acc : IndexSet),
  NoDup acc -> NoDup (fold_left insert l acc).
Proof.
  induction l as [|y l IH]; intros acc Hacc; simpl; [exact Hacc|].
  apply IH. unfold insert. destruct (contains acc y) eqn:Hc; [exact Hacc|].
  apply contains_false in Hc. apply NoDup_app; auto using NoDup_cons, NoDup_nil.
  intros z Hz [<-|[]]. contradiction.
Qed.

Lemma NoDup_collect (l : list PathBuf) : NoDup (collect l).
Proof. apply NoDup_fold_insert. constructor. Qed.

Lemma fold_insert_NoDup (l : list PathBuf) : forall (acc : IndexSet),
  NoDup (acc ++ l) -> fold_left insert l acc = acc ++ l.
Proof.
  induction l as [|y l IH]; intros acc H; simpl.
  - rewrite app_nil_r. reflexivity.
  - unfold insert.
    assert (Hy : ~ In y acc).
    { intros Hin. apply NoDup_remove_2 in H. apply H. apply in_app_iff. left; exact Hin. }
    apply contains_false in Hy. rewrite Hy.
    rewrite IH; [rewrite <- app_assoc; reflexivity|].
    rewrite <- app_assoc. exact H.
Qed.

(** Collecting a list without repetitions keeps it as it is. *)
Lemma collect_NoDup (l : list PathBuf) : NoDup l -> collect l = l.
Proof. intros H. apply fold_insert_NoDup. exact H. Qed.

Lemma In_difference_iter (a b : IndexSet) x :
  In x (difference_iter a b) <-> In x a /\ ~ In x b.
Proof.
  unfold difference_iter. rewrite filter_In. rewrite negb_true_iff, contains_false.
  tauto.
Qed.

Lemma NoDup_filter_list {A : Type} (f : A -> bool) (l : list A) :
  NoDup l -> NoDup (List.filter f l).
Proof.
  induction l as [|x l IH]; intros H; simpl; [constructor|].
  inversion H; subst. destruct (f x); auto.
  constructor; auto. rewrite filter_In. tauto.
Qed.

(** Every filter keeps the receiver's paths that satisfy a predicate. *)
Lemma filter_is_collect (fs : FileSystem) (s : FileSet) (f : Filter) :
  exists pred, index_set (filter fs s f) = collect (List.filter pred (index_set s)).
Proof. destruct f; eexists; reflexivity. Qed.

Lemma In_filter_set (fs : FileSystem) (s : FileSet) (f : Filter) :
  exists pred, forall p,
    In p (index_set (filter fs s f)) <-> In p (index_set s) /\ pred p = true.
Proof.
  destruct (filter_is_collect fs s f) as [pred Hp]. exists pred. intros p.
  rewrite Hp, In_collect, filter_In. tauto.
Qed.

(** ** C3: [filter] and [exclude] partition the receiver *)

(** C3: for every filesystem state, entry set [s] and criterion [c], a path of
    [s] is in [filter(c).to_vec()] or in [exclude(c).to_vec()] and no path is
    in both; the paths of either result are paths of [s]. *)
Theorem filter_exclude_partition (fs : FileSystem) (s : FileSet) (c : Filter) :
  (forall p, In p (to_vec s) <->
             In p (to_vec (filter fs s c)) \/ In p (to_vec (exclude fs s c))) /\
  (forall p, ~ (In p (to_vec (filter fs s c)) /\ In p (to_vec (exclude fs s c)))) /\
  (forall p, In p (to_vec s) ->
             (In p (to_vec (filter fs s c)) <-> ~ In p (to_vec (exclude fs s c)))).
Proof.
  destruct (In_filter_set fs s c) as [pred Hf].
  assert (He : forall p, In p (to_vec (exclude fs s c)) <->
                         In p (index_set s) /\ ~ In p (index_set (filter fs s c))).
  { intros p. unfold to_vec, exclude. simpl.
    rewrite In_collect, In_difference_iter. tauto. }
  unfold to_vec in *. split; [|split].
  - intros p. rewrite He, Hf. destruct (pred p); intuition congruence.
  - intros p [H1 H2]. apply He in H2. tauto.
  - intros p Hp. rewrite He, Hf. destruct (pred p); intuition congruence.
Qed.

(** ** Filtering by kind *)

Lemma item_matches_node (fs : FileSystem) (k : ItemFilter) (p : PathBuf) :
  item_matches fs k p =
  match fs_node fs p with
  | None => false
  | Some n => is_file_type_function k (file_type_of_kind (node_kind n))
  end.
Proof. unfold item_matches, symlink_metadata. destruct (fs_node fs p); reflexivity. Qed.

Lemma item_matches_exclusive (fs : FileSystem) (k1 k2 : ItemFilter) (p : PathBuf) :
  item_matches fs k1 p = true -> item_matches fs k2 p = true -> k1 = k2.
Proof.
  rewrite !item_matches_node. destruct (fs_node fs p) as [n|]; [|discriminate].
  destruct (node_kind n), k1, k2; simpl; congruence.
Qed.

Lemma In_filter_item (fs : FileSystem) (s : FileSet) (k : ItemFilter) (p : PathBuf) :
  In p (to_vec (filter fs s (Item k))) <-> In p (to_vec s) /\ item_matches fs k p = true.
Proof.
  unfold to_vec, filter, filter_by_item. simpl. rewrite In_collect, filter_In. tauto.
Qed.

(** C5: filtering by kind reads link-aware metadata.  A symbolic link (whatever
    its target, a regular file included) is kept by the [Symlink] criterion
    only; a directory only by [Directory]; a regular file only by [File]; any
    other node and a path whose metadata cannot be read by none of them. *)
Theorem filter_by_item_classification (fs : FileSystem) (s : FileSet)
    (k : ItemFilter) (p : PathBuf) :
  (fs_node fs p = None -> ~ In p (to_vec (filter fs s (Item k)))) /\
  (forall n t, fs_node fs p = Some n -> node_kind n = NSymlink t ->
     (In p (to_vec (filter fs s (Item k))) <-> In p (to_vec s) /\ k = Symlink)) /\
  (forall n, fs_node fs p = Some n -> node_kind n = NDir ->
     (In p (to_vec (filter fs s (Item k))) <-> In p (to_vec s) /\ k = Directory)) /\
  (forall n, fs_node fs p = Some n -> node_kind n = NFile ->
     (In p (to_vec (filter fs s (Item k))) <-> In p (to_vec s) /\ k = File)) /\
  (forall n, fs_node fs p = Some n -> node_kind n = NOther ->
     ~ In p (to_vec (filter fs s (Item k)))).
Proof.
  split; [|split; [|split; [|split]]]; intros;
    rewrite ?In_filter_item, item_matches_node;
    repeat match goal with H : fs_node fs p = _ |- _ => rewrite H end;
    repeat match goal with H : node_kind _ = _ |- _ => rewrite H end;
    destruct k; simpl; intuition congruence.
Qed.

(** ** Ordering by kind *)

Lemma difference_iter_disjoint (a b : IndexSet) :
  (forall x, In x a -> ~ In x b) -> difference_iter a b = a.
Proof.
  unfold difference_iter. induction a as [|x a IH]; intros H; simpl; [reflexivity|].
  assert (Hx : contains b x = false) by (apply contains_false; apply H; left; reflexivity).
  rewrite Hx. simpl. f_equal. apply IH. intros y Hy. apply H. right; exact Hy.
Qed.

Lemma collect_union_disjoint (a b : IndexSet) :
  NoDup a -> NoDup b -> (forall x, In x a -> ~ In x b) -> collect (union_iter a b) = a ++ b.
Proof.
  intros Ha Hb Hab. unfold union_iter.
  rewrite difference_iter_disjoint by (intros x Hx Hx'; exact (Hab x Hx' Hx)).
  apply collect_NoDup. apply NoDup_app; auto.
Qed.

Lemma filter_item_NoDup (fs : FileSystem) (s : FileSet) (k : ItemFilter) :
  NoDup (to_vec s) -> to_vec (filter fs s (Item k)) = List.filter (item_matches fs k) (to_vec s).
Proof.
  intros H. unfold to_vec, filter, filter_by_item. simpl.
  apply collect_NoDup. apply NoDup_filter_list. exact H.
Qed.

(** C4: on an entry set (its paths have no repetitions), [order_by(Item)] is the
    sequence union of the kind filters for directories, regular files and
    symbolic links, each of them the receiver's paths of that kind in their
    original relative order; a path whose metadata cannot be read is in none. *)
Theorem order_by_item_groups (fs : FileSystem) (s : FileSet) (Hs : NoDup (to_vec s)) :
  (forall k, to_vec (filter fs s (Item k)) = List.filter (item_matches fs k) (to_vec s)) /\
  order_by fs s OItem =
    Returned {| index_set := to_vec (filter fs s (Item Directory))
                             ++ to_vec (filter fs s (Item File))
                             ++ to_vec (filter fs s (Item Symlink)) |} /\
  (forall p, symlink_metadata fs p = None ->
     ~ In p (to_vec (filter fs s (Item Directory))
             ++ to_vec (filter fs s (Item File))
             ++ to_vec (filter fs s (Item Symlink)))).
Proof.
  split; [|split].
  - intros k. apply filter_item_NoDup. exact Hs.
  - unfold order_by, order_by_item. simpl. f_equal. f_equal.
    assert (Hnd : forall k, NoDup (index_set (filter fs s (Item k)))).
    { intros k. apply NoDup_collect. }
    assert (Hdis : forall k1 k2 x, k1 <> k2 -> In x (index_set (filter fs s (Item k1))) ->
                                   ~ In x (index_set (filter fs s (Item k2)))).
    { intros k1 k2 x Hne H1 H2.
      apply (In_filter_item fs s k1 x) in H1. apply (In_filter_item fs s k2 x) in H2.
      apply Hne. eapply item_matches_exclusive; [apply H1|apply H2]. }
    rewrite (collect_union_disjoint (index_set (filter fs s (Item Directory))));
      [| apply Hnd | apply Hnd | intros x; apply Hdis; discriminate].
    rewrite collect_union_disjoint.
    + unfold to_vec. rewrite app_assoc. reflexivity.
    + apply NoDup_app; [apply Hnd | apply Hnd | intros x Hx; eapply Hdis; [|exact Hx]; discriminate].
    + apply Hnd.
    + intros x Hx. apply in_app_iff in Hx. destruct Hx as [Hx|Hx]; (eapply Hdis; [|exact Hx]; discriminate).
  - intros p Hp Hin. rewrite !in_app_iff in Hin.
    assert (Hk : forall k, item_matches fs k p = false)
      by (intros k; unfold item_matches; rewrite Hp; reflexivity).
    destruct Hin as [H|[H|H]]; apply In_filter_item in H; rewrite Hk in H;
      destruct H; discriminate.
Qed.

Lemma order_by_item_groups_witness :
  NoDup (to_vec example_set) /\
  order_by example_fs example_set OItem =
    Returned {| index_set := ["d/img"; "d/.hidden.txt"; "d/note.txt"; "d/link"]%string |}.
Proof.
  assert (H : NoDup (to_vec example_set)).
  { change (to_vec example_set) with (collect (to_vec example_set)). apply NoDup_collect. }
  split; [exact H|].
  rewrite (proj1 (proj2 (order_by_item_groups example_fs example_set H))).
  vm_compute. reflexivity.
Defined.

(** ** The stable sort *)

Section SortFacts.
Context {A : Type}.

Lemma insert_total_perm (c : A -> A -> comparison) (x : A) (l : list A) :
  Permutation (x :: l) (insert_total c x l).
Proof.
  induction l as [|y l IH]; simpl; [reflexivity|].
  destruct (c x y); try reflexivity.
  rewrite perm_swap. constructor. exact IH.
Qed.

Lemma sort_total_perm (c : A -> A -> comparison) (l : list A) :
  Permutation l (sort_total c l).
Proof.
  induction l as [|x l IH]; simpl; [constructor|].
  rewrite <- insert_total_perm. constructor. exact IH.
Qed.

Lemma insert_by_perm (cmp : A -> A -> Outcome comparison) (x : A) :
  forall l r, insert_by cmp x l = Returned r -> Permutation (x :: l) r.
Proof.
  induction l as [|y l IH]; intros r H; simpl in H.
  - inversion H. reflexivity.
  - destruct (cmp x y) as [o|]; simpl in H; [|discriminate].
    destruct o.
    + inversion H. reflexivity.
    + inversion H. reflexivity.
    + destruct (insert_by cmp x l) as [r'|] eqn:Hr; simpl in H; [|discriminate].
      inversion H; subst. rewrite perm_swap. constructor. apply IH. reflexivity.
Qed.

Lemma sort_by_perm (cmp : A -> A -> Outcome comparison) :
  forall l r, sort_by cmp l = Returned r -> Permutation l r.
Proof.
  induction l as [|x l IH]; intros r H; simpl in H.
  - inversion H. constructor.
  - destruct (sort_by cmp l) as [r'|] eqn:Hr; simpl in H; [|discriminate].
    apply insert_by_perm in H. rewrite <- H. constructor. apply IH. reflexivity.
Qed.

(** A comparator that agrees with a total one on the elements sorted. *)
Lemma insert_by_total (cmp : A -> A -> Outcome comparison) (c : A -> A -> comparison)
    (x : A) :
  forall l, (forall b, In b l -> cmp x b = Returned (c x b)) ->
  insert_by cmp x l = Returned (insert_total c x l).
Proof.
  induction l as [|y l IH]; intros H; simpl; [reflexivity|].
  rewrite H by (left; reflexivity). simpl.
  destruct (c x y); try reflexivity.
  rewrite IH by (intros b Hb; apply H; right; exact Hb). reflexivity.
Qed.

Lemma sort_by_total (cmp : A -> A -> Outcome comparison) (c : A -> A -> comparison) :
  forall l, (forall a b, In a l -> In b l -> cmp a b = Returned (c a b)) ->
  sort_by cmp l = Returned (sort_total c l).
Proof.
  induction l as [|x l IH]; intros H; simpl; [reflexivity|].
  rewrite IH by (intros a b Ha Hb; apply H; right; assumption). simpl.
  apply insert_by_total. intros b Hb. apply H; [left; reflexivity|].
  right. apply (Permutation_in _ (Permutation_sym (sort_total_perm c l))). exact Hb.
Qed.

(** A comparator that panics on a bad element: sorting two or more elements
    one of which is bad panics, as every element gets compared. *)
Lemma sort_by_panics (cmp : A -> A -> Outcome comparison) (bad : A -> Prop)
    (Hbad : forall a b, bad a \/ bad b -> cmp a b = Panicked) :
  forall l, 2 <= List.length l -> (exists x, In x l /\ bad x) -> sort_by cmp l = Panicked.
Proof.
  induction l as [|x l IH]; intros Hlen [z [Hz Hb]]; [destruct Hz|].
  simpl. destruct (sort_by cmp l) as [r|] eqn:Hr; simpl; [|reflexivity].
  pose proof (sort_by_perm cmp l r Hr) as Hp.
  destruct r as [|y r].
  { apply Permutation_length in Hp. simpl in *. lia. }
  simpl. destruct Hz as [<-|Hz].
  - rewrite Hbad by (left; exact Hb). reflexivity.
  - destruct l as [|w [|v l']].
    + destruct Hz.
    + destruct Hz as [<-|[]].
      apply Permutation_length_1_inv in Hp. inversion Hp; subst.
      rewrite Hbad by (right; exact Hb). reflexivity.
    + enough (Returned (y :: r) = Panicked) by discriminate.
      apply IH; [simpl; lia | exists z; split; assumption].
Qed.
End SortFacts.

(** A comparator that compares keys with a total order. *)
Section KeyedSort.
Context {A K : Type} (key : A -> K) (kcmp : K -> K -> comparison).
Hypothesis kcmp_eq : forall a b, kcmp a b = Eq <-> a = b.
Hypothesis kcmp_antisym : forall a b, kcmp a b = CompOpp (kcmp b a).

Let c (a b : A) : comparison := kcmp (key a) (key b).
Let le (a b : A) : Prop := kcmp (key a) (key b) <> Gt.
Let same_key (k : K) (a : A) : bool := match kcmp (key a) k with Eq => true | _ => false end.

Lemma insert_total_hd (x y : A) (l : list A) :
  HdRel le y l -> le y x -> HdRel le y (insert_total c x l).
Proof.
  intros Hh Hyx. destruct l as [|z l]; simpl.
  - constructor. exact Hyx.
  - unfold c. destruct (kcmp (key x) (key z)); constructor; try exact Hyx.
    inversion Hh. assumption.
Qed.

Lemma insert_total_sorted (x : A) (l : list A) :
  Sorted le l -> Sorted le (insert_total c x l).
Proof.
  induction l as [|y l IH]; intros Hs; simpl.
  - repeat constructor.
  - apply Sorted_inv in Hs as [Hs Hh]. unfold c at 1.
    destruct (kcmp (key x) (key y)) eqn:E.
    + constructor; [constructor; assumption|]. constructor. unfold le. congruence.
    + constructor; [constructor; assumption|]. constructor. unfold le. congruence.
    + constructor; [apply IH; exact Hs|]. apply insert_total_hd; [exact Hh|].
      unfold le. rewrite kcmp_antisym, E. discriminate.
Qed.

Lemma sort_total_sorted (l : list A) : Sorted le (sort_total c l).
Proof.
  induction l as [|x l IH]; simpl; [constructor|]. apply insert_total_sorted. exact IH.
Qed.

Lemma insert_total_stable (k : K) (x : A) (l : list A) :
  List.filter (same_key k) (insert_total c x l) = List.filter (same_key k) (x :: l).
Proof.
  induction l as [|y l IH]; simpl; [reflexivity|].
  unfold c at 1. destruct (kcmp (key x) (key y)) eqn:E; try reflexivity.
  simpl. rewrite IH. simpl. unfold same_key.
  destruct (kcmp (key x) k) eqn:Ex, (kcmp (key y) k) eqn:Ey; try reflexivity.
  apply kcmp_eq in Ex, Ey. rewrite Ex, Ey in E.
  assert (Hk : kcmp k k = Eq) by (apply kcmp_eq; reflexivity). congruence.
Qed.

Lemma sort_total_stable (k : K) (l : list A) :
  List.filter (same_key k) (sort_total c l) = List.filter (same_key k) l.
Proof.
  induction l as [|x l IH]; simpl; [reflexivity|].
  rewrite insert_total_stable. simpl. rewrite IH. reflexivity.
Qed.

Lemma sort_total_sorted_id (l : list A) : Sorted le l -> sort_total c l = l.
Proof.
  induction l as [|x l IH]; intros Hs; simpl; [reflexivity|].
  apply Sorted_inv in Hs as [Hs Hh]. rewrite IH by exact Hs.
  destruct l as [|y l]; simpl; [reflexivity|].
  inversion Hh as [|? ? Hle]; subst. unfold le, c in *.
  destruct (kcmp (key x) (key y)); congruence.
Qed.
End KeyedSort.

(** ** Orders on names and sizes *)

Lemma ascii_compare_refl (a : ascii) : Ascii.compare a a = Eq.
Proof. unfold Ascii.compare. apply N.compare_refl. Qed.

Lemma string_compare_refl (s : string) : String.compare s s = Eq.
Proof. induction s as [|a s IH]; simpl; [reflexivity|]. rewrite ascii_compare_refl. exact IH. Qed.

Lemma os_name_cmp_eq (a b : option string) : option_cmp os_str_cmp a b = Eq <-> a = b.
Proof.
  destruct a as [a|], b as [b|]; simpl; split; intros H; try discriminate; try reflexivity.
  - apply String.compare_eq_iff in H. subst. reflexivity.
  - inversion H. apply string_compare_refl.
Qed.

Lemma os_name_cmp_antisym (a b : option string) :
  option_cmp os_str_cmp a b = CompOpp (option_cmp os_str_cmp b a).
Proof. destruct a, b; simpl; try reflexivity. apply String.compare_antisym. Qed.

(** ** C6: ordering by name *)

Lemma order_by_name_total (fs : FileSystem) (s : FileSet) :
  order_by fs s OName =
  Returned {| index_set := sort_total (fun a b => option_cmp os_str_cmp (file_name a) (file_name b))
                                      (index_set s) |}.
Proof.
  unfold order_by, order_by_extension_name_size.
  rewrite (sort_by_total _ (fun a b => option_cmp os_str_cmp (file_name a) (file_name b)));
    [reflexivity|].
  intros a b _ _. reflexivity.
Qed.

(** C6: [order_by(Name)] returns the receiver's paths with non-decreasing file
    names (the full last component, [None] first, bytes compared
    lexicographically); the paths of one name keep the receiver's relative
    order; and ordering the result by name again gives it back unchanged. *)
Theorem order_by_name_sorted_stable_idempotent (fs : FileSystem) (s : FileSet) :
  exists s', order_by fs s OName = Returned s' /\
    Sorted (fun a b => option_cmp os_str_cmp (file_name a) (file_name b) <> Gt) (to_vec s') /\
    Permutation (to_vec s) (to_vec s') /\
    (forall k, List.filter (fun p => match option_cmp os_str_cmp (file_name p) k with
                                     | Eq => true | _ => false end) (to_vec s')
               = List.filter (fun p => match option_cmp os_str_cmp (file_name p) k with
                                       | Eq => true | _ => false end) (to_vec s)) /\
    order_by fs s' OName = Returned s'.
Proof.
  eexists. split; [apply order_by_name_total|]. unfold to_vec. simpl.
  split; [|split; [|split]].
  - apply (sort_total_sorted file_name (option_cmp os_str_cmp) os_name_cmp_antisym).
  - apply sort_total_perm.
  - intros k. apply (sort_total_stable file_name (option_cmp os_str_cmp) os_name_cmp_eq).
  - rewrite order_by_name_total. simpl. do 2 f_equal.
    apply (sort_total_sorted_id file_name (option_cmp os_str_cmp)).
    apply (sort_total_sorted file_name (option_cmp os_str_cmp) os_name_cmp_antisym).
Qed.

(** ** C2: ordering by size *)

(** C2 (amended): when the link-aware metadata of every path of the receiver can
    be read, [order_by(Size)] returns the receiver's paths with non-decreasing
    lengths, paths of one length in their relative order; when the receiver
    has at least two paths and the metadata of one of them cannot be read, the
    call panics ([symlink_metadata().unwrap()]) instead of ordering that path
    as size 0. *)
Theorem order_by_size_outcome (fs : FileSystem) (s : FileSet) :
  ((forall p, In p (to_vec s) -> symlink_metadata fs p <> None) ->
   exists s', order_by fs s OSize = Returned s' /\
     Permutation (to_vec s) (to_vec s') /\
     Sorted (fun a b => N.compare (match symlink_metadata fs a with Some m => len m | None => 0%N end)
                                  (match symlink_metadata fs b with Some m => len m | None => 0%N end)
                        <> Gt) (to_vec s') /\
     (forall k, List.filter (fun p => match N.compare (match symlink_metadata fs p with
                                                       | Some m => len m | None => 0%N end) k with
                                      | Eq => true | _ => false end) (to_vec s')
                = List.filter (fun p => match N.compare (match symlink_metadata fs p with
                                                         | Some m => len m | None => 0%N end) k with
                                        | Eq => true | _ => false end) (to_vec s))) /\
  ((exists p, In p (to_vec s) /\ symlink_metadata fs p = None) ->
   2 <= List.length (to_vec s) -> order_by fs s OSize = Panicked).
Proof.
  set (size := fun p => match symlink_metadata fs p with Some m => len m | None => 0%N end).
  split.
  - intros Hall.
    assert (Hs : sort_by (order_cmp fs OSize) (index_set s)
                 = Returned (sort_total (fun a b => N.compare (size a) (size b)) (index_set s))).
    { apply sort_by_total. intros a b Ha Hb. unfold order_cmp, get_file_size, size.
      destruct (symlink_metadata fs a) eqn:Ea; [|exfalso; exact (Hall a Ha Ea)].
      destruct (symlink_metadata fs b) eqn:Eb; [|exfalso; exact (Hall b Hb Eb)].
      reflexivity. }
    eexists. split.
    + unfold order_by, order_by_extension_name_size. rewrite Hs. reflexivity.
    + unfold to_vec. simpl. split; [|split].
      * apply sort_total_perm.
      * apply (sort_total_sorted size N.compare (fun a b => N.compare_antisym b a)).
      * intros k. apply (sort_total_stable size N.compare N.compare_eq_iff).
  - intros Hbad Hlen. unfold order_by, order_by_extension_name_size.
    rewrite (sort_by_panics _ (fun p => symlink_metadata fs p = None)); [reflexivity| |exact Hlen|exact Hbad].
    intros a b [Ha|Hb]; unfold order_cmp, get_file_size.
    + rewrite Ha. reflexivity.
    + destruct (symlink_metadata fs a); simpl; [|reflexivity]. rewrite Hb. reflexivity.
Qed.

(** C2 (counterexample): on [d/a] (5 bytes) and [d/b] (metadata unreadable)
    [order_by(Size)] does not return [d/b] ordered as size 0 before [d/a]: it
    panics. *)
Lemma order_by_size_unreadable_panics :
  order_by unreadable_fs unreadable_set OSize = Panicked /\
  order_by unreadable_fs unreadable_set OSize
    <> Returned {| index_set := ["d/b"; "d/a"]%string |}.
Proof. split; [reflexivity | discriminate]. Qed.

(** ** C1: constructing a [FileSet] *)

Lemma unwrap_all_map_some (paths : list PathBuf) : unwrap_all (map Some paths) = Returned paths.
Proof. induction paths as [|p ps IH]; simpl; [reflexivity|]. rewrite IH. reflexivity. Qed.

Lemma unwrap_all_none (entries : list (option PathBuf)) :
  In None entries -> unwrap_all entries = Panicked.
Proof.
  induction entries as [|e es IH]; intros H; [destruct H|].
  destruct H as [->|H]; simpl; [reflexivity|].
  destruct e; simpl; [|reflexivity]. rewrite IH by exact H. reflexivity.
Qed.

(** C1 (amended): [FileSet::new] panics when the directory cannot be listed and
    also when any one entry of the listing cannot be read; when every entry
    reads, it returns the entries' paths in enumeration order. *)
Theorem new_outcome (fs : FileSystem) (d : PathBuf) :
  (fs_read_dir fs d = None -> new fs d = Panicked) /\
  (forall entries, fs_read_dir fs d = Some entries -> In None entries -> new fs d = Panicked) /\
  (forall paths, fs_read_dir fs d = Some (map Some paths) ->
     new fs d = Returned {| index_set := collect paths |}) /\
  (forall paths, fs_read_dir fs d = Some (map Some paths) -> NoDup paths ->
     new fs d = Returned {| index_set := paths |}).
Proof.
  unfold new. split; [|split; [|split]].
  - intros H. rewrite H. reflexivity.
  - intros entries H Hn. rewrite H. simpl. rewrite unwrap_all_none by exact Hn. reflexivity.
  - intros paths H. rewrite H. simpl. rewrite unwrap_all_map_some. reflexivity.
  - intros paths H Hnd. rewrite H. simpl. rewrite unwrap_all_map_some. simpl.
    rewrite collect_NoDup by exact Hnd. reflexivity.
Qed.

(** C1 (counterexample): a listing of [d] with one unreadable entry makes
    construction panic rather than skip the entry, and a missing directory
    makes it panic rather than return an error. *)
Lemma new_unreadable_entry_panics :
  new unreadable_fs "d"%string = Panicked /\ new unreadable_fs "missing"%string = Panicked.
Proof. split; reflexivity. Qed.

(** ** C7: reversing an entry set *)

(** C7: on an entry set (no repeated path), [reverse()] returns exactly the
    reversed order and reversing twice gives the original order back. *)
Theorem reverse_involution (s : FileSet) (Hs : NoDup (to_vec s)) :
  to_vec (reverse s) = rev (to_vec s) /\ to_vec (reverse (reverse s)) = to_vec s.
Proof.
  unfold to_vec, reverse in *. simpl.
  assert (Hr : collect (rev (index_set s)) = rev (index_set s))
    by (apply collect_NoDup; apply NoDup_rev; exact Hs).
  split; [exact Hr|]. rewrite Hr, rev_involutive. apply collect_NoDup. exact Hs.
Qed.

Lemma reverse_involution_witness :
  NoDup (to_vec example_set) /\
  to_vec (reverse example_set) = rev (to_vec example_set) /\
  to_vec (reverse (reverse example_set)) = to_vec example_set.
Proof.
  assert (H : NoDup (to_vec example_set)).
  { change (to_vec example_set) with (collect (to_vec example_set)). apply NoDup_collect. }
  split; [exact H | apply (reverse_involution example_set H)].
Defined.

(** ** C8, C9: [OrderedSet] *)

Section OrderedSetFacts.
Context {T : Type} (eq_dec : forall x y : T, {x = y} + {x <> y}).

Lemma vec_contains_In (v : list T) (item : T) :
  OrderedSet.vec_contains eq_dec v item = true <-> In item v.
Proof.
  unfold OrderedSet.vec_contains. rewrite existsb_exists. split.
  - intros [y [Hy He]]. destruct (eq_dec y item); [subst; exact Hy | discriminate].
  - intros H. exists item. split; [exact H|]. destruct (eq_dec item item); congruence.
Qed.

Lemma count_count_occ (v : list T) (item : T) :
  OrderedSet.count eq_dec v item = count_occ eq_dec v item.
Proof.
  unfold OrderedSet.count. induction v as [|y v IH]; simpl; [reflexivity|].
  destruct (eq_dec y item); simpl; rewrite IH; reflexivity.
Qed.

Lemma try_from_check_NoDup (v : list T) :
  existsb (fun item => Nat.ltb 1 (OrderedSet.count eq_dec v item)) v = false <-> NoDup v.
Proof.
  rewrite (NoDup_count_occ eq_dec). split.
  - intros H x. destruct (in_dec eq_dec x v) as [Hin|Hout].
    + destruct (Nat.ltb 1 (OrderedSet.count eq_dec v x)) eqn:E.
      * assert (Ht : existsb (fun item => Nat.ltb 1 (OrderedSet.count eq_dec v item)) v = true)
          by (apply existsb_exists; exists x; split; assumption).
        congruence.
      * apply Nat.ltb_nlt in E. rewrite <- count_count_occ. lia.
    + rewrite (proj1 (count_occ_not_In eq_dec v x) Hout). lia.
  - intros H. destruct (existsb _ v) eqn:E; [|reflexivity].
    apply existsb_exists in E as [x [_ Hx]]. apply Nat.ltb_lt in Hx.
    rewrite count_count_occ in Hx. specialize (H x). lia.
Qed.
End OrderedSetFacts.

(** C8: [push] fails with its error message, leaving the set as it was, when
    the item is already present, and otherwise appends it at the end;
    [try_from] wraps a sequence without repetitions verbatim and refuses a
    sequence with a repeated value with an error. *)
Theorem ordered_set_push_try_from {T : Type} (eq_dec : forall x y : T, {x = y} + {x <> y}) :
  (forall (s : OrderedSet.OrderedSet T) item, In item (OrderedSet.items s) ->
     OrderedSet.push eq_dec s item
     = (s, Err "Cannot add an item to set that already exists in the set"%string)) /\
  (forall (s : OrderedSet.OrderedSet T) item, ~ In item (OrderedSet.items s) ->
     OrderedSet.push eq_dec s item = (OrderedSet.mk (OrderedSet.items s ++ [item]), Ok tt)) /\
  (forall v : list T, NoDup v -> OrderedSet.try_from eq_dec v = Ok (OrderedSet.mk v)) /\
  (forall v : list T, ~ NoDup v ->
     OrderedSet.try_from eq_dec v = Err "All elements of the set must be unique"%string).
Proof.
  split; [|split; [|split]].
  - intros s item H. unfold OrderedSet.push.
    rewrite (proj2 (vec_contains_In eq_dec _ _) H). reflexivity.
  - intros s item H. unfold OrderedSet.push.
    destruct (OrderedSet.vec_contains eq_dec (OrderedSet.items s) item) eqn:E; [|reflexivity].
    apply vec_contains_In in E. contradiction.
  - intros v H. unfold OrderedSet.try_from.
    rewrite (proj2 (try_from_check_NoDup eq_dec v) H). reflexivity.
  - intros v H. unfold OrderedSet.try_from.
    destruct (existsb _ v) eqn:E; [reflexivity|].
    apply try_from_check_NoDup in E. contradiction.
Qed.

(** C9: [reverse] leaves the receiver in the reversed order and returns a set
    holding that same reversed sequence. *)
Theorem ordered_set_reverse {T : Type} (s : OrderedSet.OrderedSet T) :
  fst (OrderedSet.reverse s) = OrderedSet.mk (rev (OrderedSet.items s)) /\
  snd (OrderedSet.reverse s) = OrderedSet.mk (rev (OrderedSet.items s)) /\
  OrderedSet.to_vec (snd (OrderedSet.reverse s)) = OrderedSet.to_vec (fst (OrderedSet.reverse s)).
Proof. split; [|split]; reflexivity. Qed.

(** ** C10: [OrderedSet] and [OrderableSet] *)

Section Equivalence.
Context {T : Type} (eq_dec : forall x y : T, {x = y} + {x <> y}).

Definition related (r1 : list (OrderedSet.OrderedSet T))
                   (r2 : list (OrderableSet.OrderableSet T)) : Prop :=
  map OrderedSet.items r1 = map OrderableSet.items r2.

Lemma map_set_nth {A B : Type} (f : A -> B) (l : list A) :
  forall i x, map f (set_nth l i x) = set_nth (map f l) i (f x).
Proof.
  induction l as [|y l IH]; intros [|i] x; simpl; try reflexivity. rewrite IH. reflexivity.
Qed.

Lemma related_nth (r1 : list (OrderedSet.OrderedSet T)) r2 i :
  related r1 r2 ->
  match nth_error r1 i, nth_error r2 i with
  | Some a, Some b => OrderedSet.items a = OrderableSet.items b
  | None, None => True
  | _, _ => False
  end.
Proof.
  unfold related. intros H.
  assert (Hn : nth_error (map OrderedSet.items r1) i = nth_error (map OrderableSet.items r2) i)
    by (rewrite H; reflexivity).
  rewrite !nth_error_map in Hn.
  destruct (nth_error r1 i), (nth_error r2 i); simpl in Hn; try discriminate; try exact I.
  inversion Hn. reflexivity.
Qed.

Lemma related_app r1 r2 a b :
  related r1 r2 -> OrderedSet.items a = OrderableSet.items b -> related (r1 ++ [a]) (r2 ++ [b]).
Proof. unfold related. intros H1 H2. rewrite !map_app, H1. simpl. rewrite H2. reflexivity. Qed.

Lemma related_set_nth r1 r2 i a b :
  related r1 r2 -> OrderedSet.items a = OrderableSet.items b ->
  related (set_nth r1 i a) (set_nth r2 i b).
Proof. unfold related. intros H1 H2. rewrite !map_set_nth, H1, H2. reflexivity. Qed.

Ltac same_items :=
  repeat match goal with
  | H : OrderedSet.items ?a = OrderableSet.items ?b |- _ =>
      destruct a as [?]; destruct b as [?]; simpl in H; subst
  end.

Ltac unfold_sets :=
  unfold OrderedSet.push, OrderableSet.push, OrderedSet.vec_contains,
    OrderableSet.vec_contains, OrderedSet.intersection, OrderableSet.intersection,
    OrderedSet.difference, OrderableSet.difference,
    OrderedSet.intersection_difference_base, OrderableSet.intersection_difference_base,
    OrderedSet.reverse, OrderableSet.reverse, OrderedSet.is_disjoint,
    OrderableSet.is_disjoint, OrderedSet.to_vec, OrderableSet.to_vec,
    OrderedSet.try_from, OrderableSet.try_from, OrderedSet.count, OrderableSet.count,
    OrderedSet.new, OrderableSet.new in *.

Ltac close_related H :=
  try (destruct (existsb _ _));
  simpl; split;
  first [ reflexivity
        | exact H
        | apply related_app; [exact H | reflexivity]
        | apply related_set_nth; [exact H | reflexivity]
        | apply related_app; [apply related_set_nth; [exact H | reflexivity] | reflexivity] ].

Lemma exec_related (r1 : list (OrderedSet.OrderedSet T)) r2 (c : Command T) :
  related r1 r2 ->
  related (fst (OrderedSet.exec eq_dec r1 c)) (fst (OrderableSet.exec eq_dec r2 c)) /\
  snd (OrderedSet.exec eq_dec r1 c) = snd (OrderableSet.exec eq_dec r2 c).
Proof.
  intros H.
  destruct c as [|i x|i j|i j|i|i j|i|v]; simpl;
  repeat match goal with
  | |- context [nth_error r1 ?k] =>
      let Hk := fresh "Hk" in
      pose proof (related_nth r1 r2 k H) as Hk;
      destruct (nth_error r1 k), (nth_error r2 k); try contradiction
  end;
  same_items; unfold_sets; close_related H.
Qed.

Lemma run_related (prog : list (Command T)) :
  forall (r1 : list (OrderedSet.OrderedSet T)) r2, related r1 r2 ->
  related (fst (OrderedSet.run eq_dec r1 prog)) (fst (OrderableSet.run eq_dec r2 prog)) /\
  snd (OrderedSet.run eq_dec r1 prog) = snd (OrderableSet.run eq_dec r2 prog).
Proof.
  induction prog as [|c prog IH]; intros r1 r2 H; simpl; [split; [exact H | reflexivity]|].
  destruct (exec_related r1 r2 c H) as [Hr Ho].
  destruct (OrderedSet.exec eq_dec r1 c) as [r1' o1],
           (OrderableSet.exec eq_dec r2 c) as [r2' o2]; simpl in *.
  destruct (IH r1' r2' Hr) as [Hr' Ho'].
  destruct (OrderedSet.run eq_dec r1' prog), (OrderableSet.run eq_dec r2' prog); simpl in *.
  subst. split; [exact Hr' | reflexivity].
Qed.
End Equivalence.

(** C10: for every element type and every program of [new], [push],
    [intersection], [difference], [reverse], [is_disjoint], [to_vec] and
    [try_from] over set variables, run from no sets, [OrderedSet<T>] and
    [OrderableSet<T>] produce the same observations and end with the same
    element sequence in every set variable. *)
Theorem ordered_orderable_equivalent {T : Type} (eq_dec : forall x y : T, {x = y} + {x <> y})
    (prog : list (Command T)) :
  snd (OrderedSet.run eq_dec [] prog) = snd (OrderableSet.run eq_dec [] prog) /\
  map OrderedSet.items (fst (OrderedSet.run eq_dec [] prog))
  = map OrderableSet.items (fst (OrderableSet.run eq_dec [] prog)).
Proof.
  destruct (run_related eq_dec prog [] [] eq_refl) as [Hr Ho]. split; [exact Ho | exact Hr].
Qed.

(** * Further properties of [FileSet] *)

(** ** Filters *)

Lemma filter_pred (fs : FileSystem) (f : Filter) :
  exists pred, forall s, index_set (filter fs s f) = collect (List.filter pred (index_set s)).
Proof. destruct f; eexists; intros s; reflexivity. Qed.

Lemma fold_insert_filter (p : PathBuf -> bool) (l : list PathBuf) : forall acc,
  fold_left insert (List.filter p l) (List.filter p acc) = List.filter p (fold_left insert l acc).
Proof.
  induction l as [|y l IH]; intros acc; simpl; [reflexivity|].
  rewrite <- IH. destruct (p y) eqn:Hp; simpl; f_equal; unfold insert.
  - destruct (contains acc y) eqn:Hc.
    + apply contains_In in Hc.
      assert (Hc' : contains (List.filter p acc) y = true)
        by (apply contains_In; apply filter_In; split; assumption).
      rewrite Hc'. reflexivity.
    + assert (Hc' : contains (List.filter p acc) y = false).
      { apply contains_false. rewrite filter_In. apply contains_false in Hc. tauto. }
      rewrite Hc', filter_app. simpl. rewrite Hp. reflexivity.
  - destruct (contains acc y); [reflexivity|].
    rewrite filter_app. simpl. rewrite Hp, app_nil_r. reflexivity.
Qed.

Lemma collect_filter (p : PathBuf -> bool) (l : list PathBuf) :
  collect (List.filter p l) = List.filter p (collect l).
Proof. apply (fold_insert_filter p l []). Qed.

Lemma collect_collect (l : list PathBuf) : collect (collect l) = collect l.
Proof. apply collect_NoDup. apply NoDup_collect. Qed.

Lemma filter_filter_list {A : Type} (p q : A -> bool) (l : list A) :
  List.filter p (List.filter q l) = List.filter (fun x => p x && q x) l.
Proof.
  induction l as [|x l IH]; simpl; [reflexivity|].
  destruct (q x) eqn:E1; simpl; destruct (p x) eqn:E2; simpl; rewrite ?IH; reflexivity.
Qed.

Lemma file_set_ext (a b : FileSet) : index_set a = index_set b -> a = b.
Proof. destruct a, b. simpl. intros ->. reflexivity. Qed.

(** Filtering twice by the same criterion is filtering once. *)
Theorem filter_idempotent (fs : FileSystem) (s : FileSet) (c : Filter) :
  filter fs (filter fs s c) c = filter fs s c.
Proof.
  destruct (filter_pred fs c) as [pred Hp]. apply file_set_ext.
  rewrite !Hp, collect_filter, collect_collect, <- collect_filter, filter_filter_list.
  f_equal. apply filter_ext. intros x. destruct (pred x); reflexivity.
Qed.

(** Filters commute: filtering by [c1] then [c2] gives the same set, in the
    same order, as filtering by [c2] then [c1]. *)
Theorem filter_commute (fs : FileSystem) (s : FileSet) (c1 c2 : Filter) :
  filter fs (filter fs s c1) c2 = filter fs (filter fs s c2) c1.
Proof.
  destruct (filter_pred fs c1) as [p1 H1]. destruct (filter_pred fs c2) as [p2 H2].
  apply file_set_ext.
  rewrite H2, H1, H1, H2, !collect_filter, !collect_collect, <- !collect_filter,
    !filter_filter_list.
  f_equal. apply filter_ext. intros x. apply andb_comm.
Qed.

(** ** Visibility and text filters *)

Lemma In_filter_visibility (fs : FileSystem) (s : FileSet) (v : VisibilityFilter) p :
  In p (to_vec (filter fs s (Visibility v))) <->
  In p (to_vec s) /\ visibility_matches v p = true.
Proof.
  unfold to_vec, filter, filter_by_visibility. simpl. rewrite In_collect, filter_In. tauto.
Qed.

(** [Hidden] and [Visible] never share a path; a path of the receiver that has
    a file name is kept by one of them; a path without a file name (such as
    ["/"] or ["a/.."]) by neither. *)
Theorem visibility_split (fs : FileSystem) (s : FileSet) (p : PathBuf) :
  ~ (In p (to_vec (filter fs s (Visibility Hidden))) /\
     In p (to_vec (filter fs s (Visibility Visible)))) /\
  (In p (to_vec s) -> file_name p <> None ->
     In p (to_vec (filter fs s (Visibility Hidden))) \/
     In p (to_vec (filter fs s (Visibility Visible)))) /\
  (file_name p = None ->
     ~ In p (to_vec (filter fs s (Visibility Hidden))) /\
     ~ In p (to_vec (filter fs s (Visibility Visible)))).
Proof.
  rewrite !In_filter_visibility. unfold visibility_matches.
  destruct (file_name p) as [n|]; [|intuition discriminate].
  destruct (String.prefix "." n); simpl; intuition congruence.
Qed.

(** [Visibility(Hidden)] is the same filter as [Text(Name, ".")]. *)
Theorem hidden_is_name_prefix_dot (fs : FileSystem) (s : FileSet) :
  filter fs s (Visibility Hidden) = filter fs s (Text Name "."%string).
Proof.
  apply file_set_ext. simpl. unfold filter_by_visibility, filter_by_text. f_equal.
Qed.

Lemma prefix_trans (a b d : string) :
  String.prefix a b = true -> String.prefix b d = true -> String.prefix a d = true.
Proof.
  revert b d. induction a as [|x a IH]; intros [|y b] [|z d]; simpl; try reflexivity;
    try discriminate.
  destruct (ascii_dec x y), (ascii_dec y z); try discriminate; subst.
  destruct (ascii_dec z z); [|contradiction]. apply IH.
Qed.

(** A longer text keeps fewer paths: when [t1] is a prefix of [t2], every path
    kept by [Text(by, t2)] is kept by [Text(by, t1)]. *)
Theorem text_filter_prefix_mono (fs : FileSystem) (s : FileSet) (by_ : TextFilterBy)
    (t1 t2 : string) (H : String.prefix t1 t2 = true) (p : PathBuf) :
  In p (to_vec (filter fs s (Text by_ t2))) -> In p (to_vec (filter fs s (Text by_ t1))).
Proof.
  unfold to_vec, filter, filter_by_text. simpl. rewrite !In_collect, !filter_In.
  intros [Hp Hm]. split; [exact Hp|]. unfold text_matches in *.
  destruct (get_name_or_extension_function by_ p); [|discriminate].
  eapply prefix_trans; eassumption.
Qed.

Lemma text_filter_prefix_mono_witness :
  String.prefix "i" "im" = true /\
  In "d/img"%string (to_vec (filter example_fs example_set (Text Name "i"%string))).
Proof.
  split; [reflexivity|].
  apply (text_filter_prefix_mono example_fs example_set Name "i"%string "im"%string eq_refl).
  vm_compute. left. reflexivity.
Defined.

(** ** Sizes of [filter] and [exclude] *)

Lemma difference_iter_filter (p : PathBuf -> bool) (s : IndexSet) :
  difference_iter s (List.filter p s) = List.filter (fun x => negb (p x)) s.
Proof.
  unfold difference_iter. apply filter_ext_in. intros x Hx. f_equal.
  destruct (p x) eqn:E.
  - apply contains_In. apply filter_In. split; assumption.
  - apply contains_false. rewrite filter_In. intros [_ H]. congruence.
Qed.

Lemma length_filter_negb {A : Type} (p : A -> bool) (l : list A) :
  List.length (List.filter p l) + List.length (List.filter (fun x => negb (p x)) l)
  = List.length l.
Proof. induction l as [|x l IH]; simpl; [reflexivity|]. destruct (p x); simpl; lia. Qed.

(** On an entry set, [filter(c).len() + exclude(c).len() = len()]. *)
Theorem filter_exclude_len (fs : FileSystem) (s : FileSet) (c : Filter)
    (Hs : NoDup (to_vec s)) :
  file_set_len (filter fs s c) + file_set_len (exclude fs s c) = file_set_len s.
Proof.
  destruct (filter_pred fs c) as [pred Hp].
  assert (He : index_set (exclude fs s c)
               = collect (difference_iter (index_set s) (index_set (filter fs s c))))
    by reflexivity.
  unfold file_set_len. rewrite He, Hp.
  unfold to_vec in Hs. rewrite (collect_NoDup (List.filter pred _)) by (apply NoDup_filter_list; exact Hs).
  rewrite difference_iter_filter, collect_NoDup by (apply NoDup_filter_list; exact Hs).
  apply length_filter_negb.
Qed.

Lemma filter_exclude_len_witness :
  NoDup (to_vec example_set) /\
  file_set_len (filter example_fs example_set (Item File))
  + file_set_len (exclude example_fs example_set (Item File)) = file_set_len example_set.
Proof.
  assert (H : NoDup (to_vec example_set)).
  { change (to_vec example_set) with (collect (to_vec example_set)). apply NoDup_collect. }
  split; [exact H | apply (filter_exclude_len example_fs example_set (Item File) H)].
Defined.

(** [exclude] by kind keeps a path whose metadata cannot be read: it is in no
    kind filter, so nothing removes it. *)
Theorem exclude_item_keeps_unreadable (fs : FileSystem) (s : FileSet) (k : ItemFilter)
    (p : PathBuf) (Hp : In p (to_vec s)) (Hm : symlink_metadata fs p = None) :
  In p (to_vec (exclude fs s (Item k))).
Proof.
  unfold to_vec, exclude. simpl. rewrite In_collect, In_difference_iter.
  split; [exact Hp|]. intros H. apply (In_filter_item fs s k p) in H.
  unfold item_matches in H. rewrite Hm in H. destruct H; discriminate.
Qed.

Lemma exclude_item_keeps_unreadable_witness :
  In "d/b"%string (to_vec (exclude unreadable_fs unreadable_set (Item File))).
Proof.
  apply (exclude_item_keeps_unreadable unreadable_fs unreadable_set File "d/b"%string);
    [right; left; reflexivity | reflexivity].
Defined.

(** ** Ordering by extension *)

Lemma order_by_extension_total (fs : FileSystem) (s : FileSet) :
  order_by fs s OExtension =
  Returned {| index_set := sort_total (fun a b => option_cmp os_str_cmp (extension a) (extension b))
                                      (index_set s) |}.
Proof.
  unfold order_by, order_by_extension_name_size.
  rewrite (sort_by_total _ (fun a b => option_cmp os_str_cmp (extension a) (extension b)));
    [reflexivity|].
  intros a b _ _. reflexivity.
Qed.

Lemma sorted_none_prefix {A : Type} (key : A -> option string) (l : list A) :
  Sorted (fun a b => option_cmp os_str_cmp (key a) (key b) <> Gt) l ->
  exists l1 l2, l = l1 ++ l2 /\ Forall (fun x => key x = None) l1 /\
                Forall (fun x => key x <> None) l2.
Proof.
  induction l as [|x l IH]; intros Hs.
  - exists [], []. repeat constructor.
  - apply Sorted_inv in Hs as [Hs Hh]. destruct (IH Hs) as [l1 [l2 [-> [H1 H2]]]].
    destruct (key x) as [e|] eqn:Ex.
    + destruct l1 as [|y l1].
      * exists [], (x :: l2). split; [reflexivity|]. split; [constructor|].
        constructor; [congruence | exact H2].
      * exfalso. inversion Hh as [|? ? Hxy]; subst. inversion H1 as [|? ? Hy]; subst.
        rewrite Ex, Hy in Hxy. apply Hxy. reflexivity.
    + exists (x :: l1), l2. split; [reflexivity|]. split; [constructor; assumption | exact H2].
Qed.

(** [order_by(Extension)] never panics and returns the receiver's paths ordered
    by extension ([None] first, then bytewise), paths of one extension in their
    relative order: all paths without an extension come before all paths that
    have one; ordering the result again changes nothing. *)
Theorem order_by_extension_spec (fs : FileSystem) (s : FileSet) :
  exists s', order_by fs s OExtension = Returned s' /\
    Permutation (to_vec s) (to_vec s') /\
    Sorted (fun a b => option_cmp os_str_cmp (extension a) (extension b) <> Gt) (to_vec s') /\
    (forall k, List.filter (fun p => match option_cmp os_str_cmp (extension p) k with
                                     | Eq => true | _ => false end) (to_vec s')
               = List.filter (fun p => match option_cmp os_str_cmp (extension p) k with
                                       | Eq => true | _ => false end) (to_vec s)) /\
    (exists l1 l2, to_vec s' = l1 ++ l2 /\ Forall (fun p => extension p = None) l1 /\
                   Forall (fun p => extension p <> None) l2) /\
    order_by fs s' OExtension = Returned s'.
Proof.
  eexists. split; [apply order_by_extension_total|]. unfold to_vec. simpl.
  assert (Hsort := sort_total_sorted extension (option_cmp os_str_cmp) os_name_cmp_antisym
                     (index_set s)).
  split; [|split; [|split; [|split]]].
  - apply sort_total_perm.
  - exact Hsort.
  - intros k. apply (sort_total_stable extension (option_cmp os_str_cmp) os_name_cmp_eq).
  - apply sorted_none_prefix. exact Hsort.
  - rewrite order_by_extension_total. simpl. do 2 f_equal.
    apply (sort_total_sorted_id extension (option_cmp os_str_cmp)). exact Hsort.
Qed.

(** ** What [order_by(Item)] keeps *)

(** [order_by(Item)] never panics, and keeps exactly the receiver's paths whose
    link-aware metadata reads as a directory, a regular file or a symbolic link:
    other nodes (sockets, fifos, devices) and unreadable paths are dropped. *)
Theorem order_by_item_members (fs : FileSystem) (s : FileSet) :
  order_by fs s OItem = Returned {| index_set := order_by_item fs s |} /\
  (forall p, In p (order_by_item fs s) <->
     In p (to_vec s) /\
     match fs_node fs p with Some n => node_kind n <> NOther | None => False end).
Proof.
  split; [reflexivity|]. intros p. unfold order_by_item, union_iter.
  rewrite !In_collect, !in_app_iff, !In_difference_iter, !In_collect, !in_app_iff,
    !In_difference_iter.
  rewrite !In_filter_item by idtac.
  unfold to_vec. rewrite !item_matches_node.
  destruct (fs_node fs p) as [n|]; [|intuition discriminate].
  destruct (node_kind n); simpl; intuition (try discriminate; try congruence).
Qed.

(** ** Descending order *)

Lemma Sorted_snoc {A : Type} (R : A -> A -> Prop) (l : list A) (y x : A) :
  Sorted R (l ++ [y]) -> R y x -> Sorted R (l ++ [y; x]).
Proof.
  induction l as [|z l IH]; intros Hs Hyx; simpl in *.
  - repeat constructor. exact Hyx.
  - apply Sorted_inv in Hs as [Hs Hh]. constructor; [apply IH; assumption|].
    destruct l; simpl in *; inversion Hh; constructor; assumption.
Qed.

Lemma Sorted_rev {A : Type} (R : A -> A -> Prop) (l : list A) :
  Sorted R l -> Sorted (fun a b => R b a) (rev l).
Proof.
  induction l as [|x l IH]; intros Hs; simpl; [constructor|].
  apply Sorted_inv in Hs as [Hs Hh]. specialize (IH Hs).
  destruct l as [|y l]; simpl in *; [repeat constructor|].
  inversion Hh; subst. rewrite <- app_assoc. simpl.
  apply (Sorted_snoc (fun a b => R b a) (rev l) y x); assumption.
Qed.

(** On an entry set, [order_by(Name).reverse()] lists the paths with
    non-increasing file names: the exact reverse of the ascending order. *)
Theorem order_by_name_reverse_descending (fs : FileSystem) (s : FileSet)
    (Hs : NoDup (to_vec s)) :
  exists s', order_by fs s OName = Returned s' /\
    to_vec (reverse s') = rev (to_vec s') /\
    Sorted (fun a b => option_cmp os_str_cmp (file_name b) (file_name a) <> Gt)
           (to_vec (reverse s')).
Proof.
  destruct (order_by_name_sorted_stable_idempotent fs s) as [s' [E [Hsort [Hperm _]]]].
  exists s'. split; [exact E|].
  assert (Hnd : NoDup (to_vec s')) by (eapply Permutation_NoDup; eassumption).
  destruct (reverse_involution s' Hnd) as [Hr _]. split; [exact Hr|].
  rewrite Hr. apply (Sorted_rev (fun a b => option_cmp os_str_cmp (file_name a) (file_name b) <> Gt)).
  exact Hsort.
Qed.

Lemma order_by_name_reverse_descending_witness :
  NoDup (to_vec example_set) /\
  exists s', order_by example_fs example_set OName = Returned s' /\
    to_vec (reverse s') = rev (to_vec s') /\
    Sorted (fun a b => option_cmp os_str_cmp (file_name b) (file_name a) <> Gt)
           (to_vec (reverse s')).
Proof.
  assert (H : NoDup (to_vec example_set)).
  { change (to_vec example_set) with (collect (to_vec example_set)). apply NoDup_collect. }
  split; [exact H | apply (order_by_name_reverse_descending example_fs example_set H)].
Defined.

(** ** The [IndexSet] invariant *)

(** No operation yields a set with a repeated path: [new], every [filter],
    [exclude], [reverse] and [order_by(Item)] collect into an [IndexSet], and
    the sorting orders permute a receiver that has none. *)
Theorem file_set_NoDup_invariant :
  (forall fs d s, new fs d = Returned s -> NoDup (to_vec s)) /\
  (forall fs s c, NoDup (to_vec (filter fs s c))) /\
  (forall fs s c, NoDup (to_vec (exclude fs s c))) /\
  (forall s, NoDup (to_vec (reverse s))) /\
  (forall fs s o s', NoDup (to_vec s) -> order_by fs s o = Returned s' -> NoDup (to_vec s')).
Proof.
  split; [|split; [|split; [|split]]].
  - intros fs d s H. unfold new in H.
    destruct (fs_read_dir fs d); simpl in H; [|discriminate].
    destruct (unwrap_all l); simpl in H; [|discriminate].
    inversion H. apply NoDup_collect.
  - intros fs s c. destruct (filter_pred fs c) as [pred Hp]. unfold to_vec. rewrite Hp.
    apply NoDup_collect.
  - intros fs s c. apply NoDup_collect.
  - intros s. apply NoDup_collect.
  - intros fs s o s' Hs H. unfold order_by in H. destruct o.
    + destruct (order_by_extension_name_size fs s OExtension) as [ix|] eqn:E;
        simpl in H; [|discriminate]. inversion H; subst.
      eapply Permutation_NoDup; [apply (sort_by_perm _ _ _ E) | exact Hs].
    + simpl in H. inversion H; subst. unfold order_by_item, to_vec. apply NoDup_collect.
    + destruct (order_by_extension_name_size fs s OName) as [ix|] eqn:E;
        simpl in H; [|discriminate]. inversion H; subst.
      eapply Permutation_NoDup; [apply (sort_by_perm _ _ _ E) | exact Hs].
    + destruct (order_by_extension_name_size fs s OSize) as [ix|] eqn:E;
        simpl in H; [|discriminate]. inversion H; subst.
      eapply Permutation_NoDup; [apply (sort_by_perm _ _ _ E) | exact Hs].
Qed.

(** * Further properties of [OrderedSet] *)

Section OrderedSetAlgebra.
Context {T : Type} (eq_dec : forall x y : T, {x = y} + {x <> y}).

Lemma In_intersection (a b : OrderedSet.OrderedSet T) x :
  In x (OrderedSet.to_vec (OrderedSet.intersection eq_dec a b)) <->
  In x (OrderedSet.items a) /\ In x (OrderedSet.items b).
Proof.
  unfold OrderedSet.intersection, OrderedSet.intersection_difference_base, OrderedSet.to_vec.
  simpl. rewrite filter_In, <- (vec_contains_In eq_dec (OrderedSet.items b) x).
  destruct (OrderedSet.vec_contains eq_dec _ x); simpl; intuition congruence.
Qed.

Lemma In_difference (a b : OrderedSet.OrderedSet T) x :
  In x (OrderedSet.to_vec (OrderedSet.difference eq_dec a b)) <->
  In x (OrderedSet.items a) /\ ~ In x (OrderedSet.items b).
Proof.
  unfold OrderedSet.difference, OrderedSet.intersection_difference_base, OrderedSet.to_vec.
  simpl. rewrite filter_In, <- (vec_contains_In eq_dec (OrderedSet.items b) x).
  destruct (OrderedSet.vec_contains eq_dec _ x); simpl; intuition congruence.
Qed.

Lemma filter_partition_perm {A : Type} (p : A -> bool) (l : list A) :
  Permutation l (List.filter p l ++ List.filter (fun x => negb (p x)) l).
Proof.
  induction l as [|x l IH]; simpl; [constructor|].
  destruct (p x); simpl; [constructor; exact IH|].
  apply Permutation_cons_app. exact IH.
Qed.

(** [intersection] keeps the receiver's elements present in [other] and
    [difference] those absent from it, both in the receiver's order; together
    they hold exactly the receiver's elements. *)
Theorem intersection_difference_partition (a b : OrderedSet.OrderedSet T) :
  (forall x, In x (OrderedSet.to_vec (OrderedSet.intersection eq_dec a b)) <->
             In x (OrderedSet.items a) /\ In x (OrderedSet.items b)) /\
  (forall x, In x (OrderedSet.to_vec (OrderedSet.difference eq_dec a b)) <->
             In x (OrderedSet.items a) /\ ~ In x (OrderedSet.items b)) /\
  incl (OrderedSet.to_vec (OrderedSet.intersection eq_dec a b)) (OrderedSet.items a) /\
  Permutation (OrderedSet.items a)
    (OrderedSet.to_vec (OrderedSet.intersection eq_dec a b)
     ++ OrderedSet.to_vec (OrderedSet.difference eq_dec a b)).
Proof.
  split; [|split; [|split]].
  - apply In_intersection.
  - apply In_difference.
  - intros x Hx. apply In_intersection in Hx. tauto.
  - unfold OrderedSet.intersection, OrderedSet.difference,
      OrderedSet.intersection_difference_base, OrderedSet.to_vec. simpl.
    rewrite (filter_ext (fun x => Bool.eqb (OrderedSet.vec_contains eq_dec (OrderedSet.items b) x) false)
                        (fun x => negb (Bool.eqb (OrderedSet.vec_contains eq_dec (OrderedSet.items b) x) true)))
      by (intros x; destruct (OrderedSet.vec_contains eq_dec _ x); reflexivity).
    apply filter_partition_perm.
Qed.

(** [is_disjoint] holds exactly when no element is in both sets, so it does
    not depend on the order of its arguments. *)
Theorem is_disjoint_spec (a b : OrderedSet.OrderedSet T) :
  (OrderedSet.is_disjoint eq_dec a b = true <->
   forall x, In x (OrderedSet.items a) -> ~ In x (OrderedSet.items b)) /\
  OrderedSet.is_disjoint eq_dec a b = OrderedSet.is_disjoint eq_dec b a.
Proof.
  assert (Hspec : forall a b : OrderedSet.OrderedSet T,
            OrderedSet.is_disjoint eq_dec a b = true <->
            forall x, In x (OrderedSet.items a) -> ~ In x (OrderedSet.items b)).
  { intros a' b'. unfold OrderedSet.is_disjoint.
    destruct (OrderedSet.to_vec (OrderedSet.intersection eq_dec a' b')) as [|y l] eqn:E.
    - split; [|reflexivity]. intros _ x Ha Hb.
      assert (Hx : In x (OrderedSet.to_vec (OrderedSet.intersection eq_dec a' b')))
        by (apply In_intersection; split; assumption).
      rewrite E in Hx. destruct Hx.
    - split; [discriminate|]. intros H.
      assert (Hy : In y (OrderedSet.to_vec (OrderedSet.intersection eq_dec a' b')))
        by (rewrite E; left; reflexivity).
      apply In_intersection in Hy. destruct Hy as [Ha Hb]. exfalso. exact (H y Ha Hb). }
  split; [apply Hspec|].
  destruct (OrderedSet.is_disjoint eq_dec a b) eqn:E1,
           (OrderedSet.is_disjoint eq_dec b a) eqn:E2; try reflexivity.
  - pose proof (proj1 (Hspec a b) E1) as F1. exfalso.
    assert (H2 : OrderedSet.is_disjoint eq_dec b a = true)
      by (apply (proj2 (Hspec b a)); intros x Hb Ha; exact (F1 x Ha Hb)).
    congruence.
  - pose proof (proj1 (Hspec b a) E2) as F2. exfalso.
    assert (H1 : OrderedSet.is_disjoint eq_dec a b = true)
      by (apply (proj2 (Hspec a b)); intros x Ha Hb; exact (F2 x Hb Ha)).
    congruence.
Qed.
End OrderedSetAlgebra.

Section OrderedSetInvariant.
Context {T : Type} (eq_dec : forall x y : T, {x = y} + {x <> y}).

Definition sets_unique (regs : list (OrderedSet.OrderedSet T)) : Prop :=
  Forall (fun s => NoDup (OrderedSet.items s)) regs.

Lemma sets_unique_nth regs i a :
  sets_unique regs -> nth_error regs i = Some a -> NoDup (OrderedSet.items a).
Proof.
  unfold sets_unique. rewrite Forall_forall. intros H E. apply H. eapply nth_error_In. exact E.
Qed.

Lemma sets_unique_set_nth regs : forall i a,
  sets_unique regs -> NoDup (OrderedSet.items a) -> sets_unique (set_nth regs i a).
Proof.
  unfold sets_unique. induction regs as [|y regs IH]; intros [|i] a H Ha; simpl;
    inversion H; subst; constructor; auto.
Qed.

Lemma sets_unique_app regs a :
  sets_unique regs -> NoDup (OrderedSet.items a) -> sets_unique (regs ++ [a]).
Proof. unfold sets_unique. intros H Ha. apply Forall_app. split; [exact H | constructor; auto]. Qed.

Lemma push_unique (s : OrderedSet.OrderedSet T) x :
  NoDup (OrderedSet.items s) -> NoDup (OrderedSet.items (fst (OrderedSet.push eq_dec s x))).
Proof.
  intros H. unfold OrderedSet.push.
  destruct (OrderedSet.vec_contains eq_dec (OrderedSet.items s) x) eqn:E; simpl; [exact H|].
  apply NoDup_app; [exact H | repeat constructor; intros [] |].
  intros y Hy [<-|[]]. apply (proj2 (vec_contains_In eq_dec _ _)) in Hy. congruence.
Qed.

Lemma exec_unique regs (c : Command T) :
  sets_unique regs -> sets_unique (fst (OrderedSet.exec eq_dec regs c)).
Proof.
  intros H. destruct c as [|i x|i j|i j|i|i j|i|v]; simpl.
  - apply sets_unique_app; [exact H | constructor].
  - destruct (nth_error regs i) as [a|] eqn:E; [|exact H].
    pose proof (push_unique a x (sets_unique_nth regs i a H E)) as Hp.
    destruct (OrderedSet.push eq_dec a x) as [a' r]. simpl in *.
    apply sets_unique_set_nth; assumption.
  - destruct (nth_error regs i) as [a|] eqn:E, (nth_error regs j) as [b|]; try exact H.
    apply sets_unique_app; [exact H|]. apply NoDup_filter_list.
    exact (sets_unique_nth regs i a H E).
  - destruct (nth_error regs i) as [a|] eqn:E, (nth_error regs j) as [b|]; try exact H.
    apply sets_unique_app; [exact H|]. apply NoDup_filter_list.
    exact (sets_unique_nth regs i a H E).
  - destruct (nth_error regs i) as [a|] eqn:E; [|exact H].
    pose proof (NoDup_rev (sets_unique_nth regs i a H E)) as Hr. simpl.
    apply sets_unique_app; [apply sets_unique_set_nth|]; assumption.
  - destruct (nth_error regs i), (nth_error regs j); exact H.
  - destruct (nth_error regs i); exact H.
  - destruct (OrderedSet.try_from eq_dec v) as [s|e] eqn:E; [|exact H]. simpl.
    apply sets_unique_app; [exact H|].
    unfold OrderedSet.try_from in E.
    destruct (existsb _ v) eqn:Ex; [discriminate|]. inversion E; subst. simpl.
    apply (try_from_check_NoDup eq_dec). exact Ex.
Qed.

Lemma run_unique (prog : list (Command T)) : forall regs,
  sets_unique regs -> sets_unique (fst (OrderedSet.run eq_dec regs prog)).
Proof.
  induction prog as [|c prog IH]; intros regs H; simpl; [exact H|].
  pose proof (exec_unique regs c H) as H1.
  destruct (OrderedSet.exec eq_dec regs c) as [regs1 o1]. simpl in H1.
  pose proof (IH regs1 H1) as H2.
  destruct (OrderedSet.run eq_dec regs1 prog). exact H2.
Qed.
End OrderedSetInvariant.

(** Whatever sequence of [new], [push], [intersection], [difference],
    [reverse], [is_disjoint], [to_vec] and [try_from] is run from no sets,
    no [OrderedSet] it leaves holds a repeated element. *)
Theorem ordered_set_unique_invariant {T : Type} (eq_dec : forall x y : T, {x = y} + {x <> y})
    (prog : list (Command T)) :
  Forall (fun s => NoDup (OrderedSet.items s)) (fst (OrderedSet.run eq_dec [] prog)).
Proof. apply (run_unique eq_dec prog []). constructor. Qed.
